(** * opto/runtime.hpp: NamedCounter and the OptoRuntime stub identities

    A shallow embedding of the inline code of
    [src/hotspot/share/opto/runtime.hpp]: the class [NamedCounter]
    (constructor, destructor, accessors, [set_next]) and
    [OptoRuntime::stub_name(OptoStubId)] with the [OptoStubId] enum.
    The header only declares the other members of [OptoRuntime]; where a
    property needs one of them (the builder of the global counter list) its
    definition is marked as modelled from the spec.

    Conventions.
    - A pointer is [option positive]; [None] is [nullptr].
    - The C heap of character strings is a finite map from addresses to
      the characters each block holds. Whether the allocator has memory
      left for one more block is an input of every call that allocates.
    - A HotSpot [assert] that does not hold ends the call with
      [AssertionFailure] (a debug build); an array read outside the array
      is [OutOfBounds]. *)

From stdpp Require Import base numbers gmap list strings.

Open Scope Z_scope.

(** ** Outcomes of a call *)

Inductive outcome (A : Type) : Type :=
| Returns (a : A)
| AssertionFailure (msg : string)
| OutOfBounds.

Arguments Returns {A} a.
Arguments AssertionFailure {A} msg.
Arguments OutOfBounds {A}.

Definition addr : Type := positive.

(** [ptr] is a possibly null pointer. *)
Definition ptr : Type := option addr.

Definition nullptr : ptr := None.

(** ** class NamedCounter (runtime.hpp lines 59-98) *)

Module NamedCounter.

(** [enum CounterTag] *)
Inductive CounterTag : Set :=
| NoTag
| LockCounter
| EliminatedLockCounter.

#[global] Instance CounterTag_eq_dec : EqDecision CounterTag.
Proof. solve_decision. Defined.

(** The four private fields. [_name] points into the C heap of strings,
    [_next] at another counter; [_count] is a C [int]. *)
Record NamedCounter : Type := mkNamedCounter {
  _name : ptr;
  _count : Z;
  _tag : CounterTag;
  _next : ptr
}.

(** [os::strdup] is declared outside this header. It is taken as the C
    library's duplicate: when the allocator has memory ([mem]) the result
    is a block at an address not in use, holding the same characters;
    otherwise the result is null and the heap is as before. Nothing in the
    header decides which of the two happens. *)
Definition os_strdup (mem : bool) (h : gmap addr string) (s : string)
  : ptr * gmap addr string :=
  if mem
  then let a := fresh (dom h) in (Some a, <[a := s]> h)
  else (nullptr, h).

(** [os::free] of a block. *)
Definition os_free (h : gmap addr string) (a : addr) : gmap addr string :=
  delete a h.

(** The constructor [NamedCounter(const char *n, CounterTag tag = NoTag)]:
    [_name(n == nullptr ? nullptr : os::strdup(n))], the result of
    [os::strdup] stored as it comes. Reading [n] where no string lives is
    undefined: the result is [None]. *)
Definition new (mem : bool) (h : gmap addr string) (n : ptr) (tag : CounterTag)
  : option (NamedCounter * gmap addr string) :=
  match n with
  | None => Some (mkNamedCounter nullptr 0 tag nullptr, h)
  | Some p =>
      match h !! p with
      | Some s =>
          let '(a, h') := os_strdup mem h s in
          Some (mkNamedCounter a 0 tag nullptr, h')
      | None => None
      end
  end.

(** The constructor called with the default argument [tag = NoTag]. *)
Definition new_default (mem : bool) (h : gmap addr string) (n : ptr)
  : option (NamedCounter * gmap addr string) :=
  new mem h n NoTag.

(** The destructor [~NamedCounter()]. *)
Definition destroy (h : gmap addr string) (c : NamedCounter) : gmap addr string :=
  match _name c with
  | Some a => os_free h a
  | None => h
  end.

Definition name (c : NamedCounter) : ptr := _name c.
Definition count (c : NamedCounter) : Z := _count c.
Definition tag (c : NamedCounter) : CounterTag := _tag c.
Definition set_tag (c : NamedCounter) (tag : CounterTag) : NamedCounter :=
  mkNamedCounter (_name c) (_count c) tag (_next c).
Definition next (c : NamedCounter) : ptr := _next c.

(** [set_next]: [assert(_next == nullptr || next == nullptr, "already set")]
    and then the store. *)
Definition set_next (c : NamedCounter) (next : ptr) : outcome NamedCounter :=
  if decide (_next c = nullptr ∨ next = nullptr)
  then Returns (mkNamedCounter (_name c) (_count c) (_tag c) next)
  else AssertionFailure "already set".

End NamedCounter.

(** ** Executions of [set_next] on one counter *)

Module LinkHistory.
Import NamedCounter.

(** The calls [c->set_next(p1); c->set_next(p2); ...] in order, as long as
    every assertion holds: the value of the link after each call, and the
    counter at the end. An assertion failure ends the run. *)
Fixpoint run_set_next (c : NamedCounter) (calls : list ptr)
  : outcome (list ptr * NamedCounter) :=
  match calls with
  | [] => Returns ([], c)
  | p :: rest =>
      match set_next c p with
      | Returns c' =>
          match run_set_next c' rest with
          | Returns (hist, c'') => Returns (next c' :: hist, c'')
          | AssertionFailure m => AssertionFailure m
          | OutOfBounds => OutOfBounds
          end
      | AssertionFailure m => AssertionFailure m
      | OutOfBounds => OutOfBounds
      end
  end.

(** A history of link values in which the link, once set, keeps its value:
    it is set at most once and never reassigned. *)
Definition set_once (hist : list ptr) : Prop :=
  ∀ (i j : nat) (a : addr),
    (i ≤ j < length hist)%nat → hist !! i = Some (Some a) → hist !! j = Some (Some a).

(** How often a history goes from an unset link to a set one. *)
Fixpoint transitions_to_set (before : ptr) (hist : list ptr) : nat :=
  match hist with
  | [] => O
  | p :: rest =>
      ((match before, p with
        | None, Some _ => 1
        | _, _ => 0
        end) + transitions_to_set p rest)%nat
  end.

(** What a step of a history looks like when only [set_next] changes the
    link: from unset to anything, or from anything to unset. *)
Definition guarded_step (before after : ptr) : Prop :=
  before = nullptr ∨ after = nullptr.

Fixpoint guarded_history (before : ptr) (hist : list ptr) : Prop :=
  match hist with
  | [] => True
  | p :: rest => guarded_step before p ∧ guarded_history p rest
  end.

End LinkHistory.

(** ** The global list of counters (runtime.hpp lines 346-355) *)

Module Registry.
Import NamedCounter.

(** The counters that were allocated, the head
    [OptoRuntime::_named_counters], and the C heap of strings. *)
Record registry : Type := mkRegistry {
  counters : gmap addr NamedCounter;
  _named_counters : ptr;
  strings : gmap addr string
}.

Definition empty_registry (h : gmap addr string) : registry :=
  mkRegistry ∅ nullptr h.

(** Modelled from the spec: the body of [OptoRuntime::new_named_counter] is
    not in the header, which declares it next to the head pointer
    [_named_counters]. The spec's create (section 4.5) allocates a counter,
    links it into the global list with the link set once, and returns the
    handle; with a single head pointer that is insertion at the head:
    construct, [set_next(head)], publish as the new head. The label is taken
    as the constructor's argument, [mem] is whether [os::strdup] gets a
    block for it. *)
Definition new_named_counter (mem : bool) (r : registry) (n : ptr) (tag : CounterTag)
  : option (addr * registry) :=
  match new mem (strings r) n tag with
  | Some (c, h') =>
      match set_next c (_named_counters r) with
      | Returns c' =>
          let a := fresh (dom (counters r)) in
          Some (a, mkRegistry (<[a := c']> (counters r)) (Some a) h')
      | _ => None
      end
  | None => None
  end.

(** A sequence of creations, each request with its allocator outcome, label
    and tag; the handles are returned in creation order. *)
Fixpoint create_all (r : registry) (reqs : list (bool * ptr * CounterTag))
  : option (list addr * registry) :=
  match reqs with
  | [] => Some ([], r)
  | (mem, n, tag) :: rest =>
      match new_named_counter mem r n tag with
      | Some (a, r') =>
          match create_all r' rest with
          | Some (hs, r'') => Some (a :: hs, r'')
          | None => None
          end
      | None => None
      end
  end.

(** Following [next()] from [p], as [print_named_counters] walks the list:
    the counters met, or [None] when [fuel] links did not reach the end or
    a link points at no counter. *)
Fixpoint walk (cs : gmap addr NamedCounter) (fuel : nat) (p : ptr) : option (list addr) :=
  match p with
  | None => Some []
  | Some a =>
      match fuel with
      | O => None
      | S fuel' =>
          match cs !! a with
          | Some c =>
              match walk cs fuel' (next c) with
              | Some l => Some (a :: l)
              | None => None
              end
          | None => None
          end
      end
  end.

(** [linked cs p l]: following [next()] from [p] meets exactly the counters
    [l], in that order, and then the null link. *)
Inductive linked (cs : gmap addr NamedCounter) : ptr → list addr → Prop :=
| linked_end : linked cs nullptr []
| linked_step a c l :
    cs !! a = Some c → linked cs (next c) l → linked cs (Some a) (a :: l).

(** The state of the list: the head leads through [l], which holds every
    allocated counter once. *)
Definition well_linked (r : registry) (l : list addr) : Prop :=
  linked (counters r) (_named_counters r) l ∧
  NoDup l ∧
  (∀ a, a ∈ l ↔ is_Some (counters r !! a)) ∧
  length l = size (counters r).

(** The label of every request is null or a string of the heap. *)
Definition labels_live (h : gmap addr string) (reqs : list (bool * ptr * CounterTag))
  : Prop :=
  Forall (λ req, ∀ p, req.1.2 = Some p → is_Some (h !! p)) reqs.

End Registry.

(** ** OptoStubId and OptoRuntime::stub_name (runtime.hpp lines 102-111, 136-137, 207-211) *)

Module OptoRuntime.

(** The three kinds of entry the macro [C2_STUBS_DO] enumerates, one per
    template argument. *)
Inductive stub_kind : Set :=
| C2_BLOB
| C2_STUB
| C2_JVMTI_STUB.

(** One entry of [C2_STUBS_DO]: its kind and the name its table string
    spells. The macro itself is in runtime/stubDeclarations.hpp, outside the
    header; the list of its entries is a parameter below. *)
Record stub_decl : Type := mkStub {
  decl_kind : stub_kind;
  decl_name : string
}.

(** [NO_STUBID = -1] *)
Definition NO_STUBID : Z := -1.

(** The enumerators that [C2_STUBS_DO] declares between [NO_STUBID] and
    [NUM_STUBIDS]: each is one more than the one before. *)
Fixpoint enumerators (prev : Z) (stubs : list stub_decl) : list Z :=
  match stubs with
  | [] => []
  | _ :: rest => (prev + 1) :: enumerators (prev + 1) rest
  end.

(** [NUM_STUBIDS], the enumerator after the last declared one. *)
Definition NUM_STUBIDS (stubs : list stub_decl) : Z :=
  List.last (enumerators NO_STUBID stubs) NO_STUBID + 1.

(** [_stub_names]: the header declares the array ("Stub names indexed by
    sharedStubId"); its initialiser, outside the header, has one string per
    entry of [C2_STUBS_DO], in that order. *)
Definition _stub_names (stubs : list stub_decl) : list string :=
  decl_name <$> stubs.

(** Reading [arr[i]] for a C [int] index. *)
Definition array_read {A : Type} (arr : list A) (i : Z) : outcome A :=
  if decide (0 ≤ i)
  then match arr !! Z.to_nat i with
       | Some x => Returns x
       | None => OutOfBounds
       end
  else OutOfBounds.

(** The condition of the assertion in [stub_name]:
    [id > OptoStubId::NO_STUBID && id < OptoStubId::NUM_STUBIDS]. *)
Definition in_range (stubs : list stub_decl) (id : Z) : Prop :=
  NO_STUBID < id ∧ id < NUM_STUBIDS stubs.

#[global] Instance in_range_dec stubs id : Decision (in_range stubs id).
Proof. unfold in_range. apply _. Defined.

(** [stub_name(OptoStubId id)]: the assertion, then [_stub_names[(int)id]]. *)
Definition stub_name (stubs : list stub_decl) (id : Z) : outcome string :=
  if decide (in_range stubs id)
  then array_read (_stub_names stubs) id
  else AssertionFailure "stub id out of range".

(** A table to run the definitions on: the stubs and blobs whose
    entry-point accessors the header defines (lines 214-244), in the order
    of the accessors. The order of the real macro is not in the header. *)
Definition header_stubs : list stub_decl :=
  [ mkStub C2_BLOB "uncommon_trap";
    mkStub C2_BLOB "exception";
    mkStub C2_STUB "new_instance";
    mkStub C2_STUB "new_array";
    mkStub C2_STUB "new_array_nozero";
    mkStub C2_STUB "multianewarray2";
    mkStub C2_STUB "multianewarray3";
    mkStub C2_STUB "multianewarray4";
    mkStub C2_STUB "multianewarray5";
    mkStub C2_STUB "multianewarrayN";
    mkStub C2_STUB "complete_monitor_locking";
    mkStub C2_STUB "monitor_notify";
    mkStub C2_STUB "monitor_notifyAll";
    mkStub C2_STUB "rethrow";
    mkStub C2_STUB "slow_arraycopy";
    mkStub C2_STUB "register_finalizer";
    mkStub C2_STUB "load_unknown_inline";
    mkStub C2_JVMTI_STUB "notify_jvmti_vthread_start";
    mkStub C2_JVMTI_STUB "notify_jvmti_vthread_end";
    mkStub C2_JVMTI_STUB "notify_jvmti_vthread_mount";
    mkStub C2_JVMTI_STUB "notify_jvmti_vthread_unmount" ].

End OptoRuntime.

(** ** Calls of the mutating members of a counter *)

Module Lifecycle.
Import NamedCounter.

(** The two members of [NamedCounter] that write a field. *)
Inductive call : Type :=
| SetTag (t : CounterTag)
| SetNext (p : ptr).

Definition do_call (c : NamedCounter) (k : call) : outcome NamedCounter :=
  match k with
  | SetTag t => Returns (set_tag c t)
  | SetNext p => set_next c p
  end.

(** The calls in order; the first failed assertion ends the run. *)
Fixpoint do_calls (c : NamedCounter) (ks : list call) : outcome NamedCounter :=
  match ks with
  | [] => Returns c
  | k :: rest =>
      match do_call c k with
      | Returns c' => do_calls c' rest
      | AssertionFailure m => AssertionFailure m
      | OutOfBounds => OutOfBounds
      end
  end.

(** The tags and the links the calls write, in order. *)
Definition tags_written (ks : list call) : list CounterTag :=
  omap (λ k, match k with SetTag t => Some t | SetNext _ => None end) ks.

Definition links_written (ks : list call) : list ptr :=
  omap (λ k, match k with SetNext p => Some p | SetTag _ => None end) ks.

End Lifecycle.

(** * Properties *)

(** ** Stub ids and names *)

Section StubIdentity.
Import OptoRuntime.

Lemma enumerators_length (prev : Z) (stubs : list stub_decl) :
  length (enumerators prev stubs) = length stubs.
Proof.
  revert prev. induction stubs as [|d rest IH]; intros prev; simpl.
  - reflexivity.
  - by rewrite IH.
Qed.

(** The i-th entry of the macro gets the enumerator [prev + 1 + i]: the ids
    are dense. *)
Lemma enumerators_lookup (prev : Z) (stubs : list stub_decl) (i : nat) :
  (i < length stubs)%nat →
  enumerators prev stubs !! i = Some (prev + 1 + Z.of_nat i).
Proof.
  revert prev i. induction stubs as [|d rest IH]; intros prev i Hi; simpl in *.
  - lia.
  - destruct i as [|i]; simpl.
    + f_equal. lia.
    + rewrite IH by lia. f_equal. lia.
Qed.

Lemma enumerators_last (prev d0 : Z) (stubs : list stub_decl) :
  stubs ≠ [] →
  List.last (enumerators prev stubs) d0 = prev + Z.of_nat (length stubs).
Proof.
  revert prev. induction stubs as [|d rest IH]; intros prev Hne.
  - congruence.
  - destruct rest as [|d' rest'].
    + simpl. lia.
    + change (List.last (enumerators prev (d :: d' :: rest')) d0)
        with (List.last (enumerators (prev + 1) (d' :: rest')) d0).
      rewrite IH by discriminate.
      cbn [length]. lia.
Qed.

Lemma NUM_STUBIDS_count (stubs : list stub_decl) :
  NUM_STUBIDS stubs = Z.of_nat (length stubs).
Proof.
  unfold NUM_STUBIDS. destruct stubs as [|d rest].
  - reflexivity.
  - rewrite enumerators_last by discriminate. unfold NO_STUBID. lia.
Qed.

Lemma stub_names_length (stubs : list stub_decl) :
  length (_stub_names stubs) = length stubs.
Proof. unfold _stub_names. apply length_fmap. Qed.

Lemma in_range_index (stubs : list stub_decl) (id : Z) :
  in_range stubs id →
  0 ≤ id ∧ (Z.to_nat id < length (_stub_names stubs))%nat.
Proof.
  unfold in_range, NO_STUBID. rewrite NUM_STUBIDS_count, stub_names_length. lia.
Qed.

Lemma array_read_in_bounds {A : Type} (arr : list A) (i : Z) :
  0 ≤ i → (Z.to_nat i < length arr)%nat →
  ∃ x, arr !! Z.to_nat i = Some x ∧ array_read arr i = Returns x.
Proof.
  intros H0 Hlt. destruct (lookup_lt_is_Some_2 arr (Z.to_nat i) Hlt) as [x Hx].
  exists x. split; [done|].
  unfold array_read. rewrite decide_True by done. by rewrite Hx.
Qed.

Lemma array_read_returns {A : Type} (arr : list A) (i : Z) (x : A) :
  array_read arr i = Returns x →
  0 ≤ i ∧ (Z.to_nat i < length arr)%nat.
Proof.
  unfold array_read. destruct (decide (0 ≤ i)) as [H0|]; [|discriminate].
  destruct (arr !! Z.to_nat i) as [y|] eqn:Hy; [|discriminate].
  intros _. split; [done|]. by eapply lookup_lt_Some.
Qed.

Lemma stub_name_in_range (stubs : list stub_decl) (id : Z) :
  in_range stubs id →
  ∃ s, _stub_names stubs !! Z.to_nat id = Some s ∧ stub_name stubs id = Returns s.
Proof.
  intros Hr. destruct (in_range_index stubs id Hr) as [H0 Hlt].
  destruct (array_read_in_bounds (_stub_names stubs) id H0 Hlt) as (s & Hs & Hread).
  exists s. split; [done|].
  unfold stub_name. by rewrite decide_True.
Qed.

Lemma stub_name_out_of_range (stubs : list stub_decl) (id : Z) :
  ¬ in_range stubs id →
  stub_name stubs id = AssertionFailure "stub id out of range".
Proof. intros Hn. unfold stub_name. by rewrite decide_False. Qed.

(** C9. [stub_name(id)] is safe exactly for [NO_STUBID < id < NUM_STUBIDS]:
    there the assertion holds, the index [(int)id] is inside [_stub_names]
    and the entry is returned; for every other id, and for the sentinel
    [NO_STUBID] and the bound [NUM_STUBIDS] themselves, the assertion fails;
    the out-of-bounds read is never reached. The assertion's condition is
    the very condition under which the read [_stub_names[(int)id]] is inside
    the array. *)
Theorem stub_name_safe_iff_in_range (stubs : list stub_decl) (id : Z) :
  (in_range stubs id ↔ NO_STUBID < id < NUM_STUBIDS stubs) ∧
  (in_range stubs id ↔ ∃ s, stub_name stubs id = Returns s) ∧
  (in_range stubs id ↔ ∃ s, array_read (_stub_names stubs) id = Returns s) ∧
  (in_range stubs id →
     0 ≤ id < Z.of_nat (length (_stub_names stubs)) ∧
     ∃ s, _stub_names stubs !! Z.to_nat id = Some s ∧ stub_name stubs id = Returns s) ∧
  (¬ in_range stubs id ↔ stub_name stubs id = AssertionFailure "stub id out of range") ∧
  stub_name stubs NO_STUBID = AssertionFailure "stub id out of range" ∧
  stub_name stubs (NUM_STUBIDS stubs) = AssertionFailure "stub id out of range" ∧
  stub_name stubs id ≠ OutOfBounds.
Proof.
  assert (Hin : in_range stubs id → ∃ s, stub_name stubs id = Returns s).
  { intros Hr. destruct (stub_name_in_range stubs id Hr) as (s & _ & Hs). eauto. }
  split_and!.
  - done.
  - split; [exact Hin|].
    intros [s Hs]. destruct (decide (in_range stubs id)) as [|Hn]; [done|].
    rewrite (stub_name_out_of_range stubs id Hn) in Hs. discriminate.
  - split.
    + intros Hr. destruct (in_range_index stubs id Hr) as [H0 Hlt].
      destruct (array_read_in_bounds (_stub_names stubs) id H0 Hlt) as (s & _ & Hs).
      eauto.
    + intros [s Hs]. apply array_read_returns in Hs as [H0 Hlt].
      rewrite stub_names_length in Hlt.
      unfold in_range, NO_STUBID. rewrite NUM_STUBIDS_count. lia.
  - intros Hr. split.
    + destruct (in_range_index stubs id Hr). lia.
    + by apply stub_name_in_range.
  - split; [apply stub_name_out_of_range|].
    intros Hf Hr. destruct (Hin Hr) as [s Hs]. congruence.
  - apply stub_name_out_of_range. unfold in_range. lia.
  - apply stub_name_out_of_range. unfold in_range. lia.
  - destruct (decide (in_range stubs id)) as [Hr|Hn].
    + destruct (Hin Hr) as [s Hs]. congruence.
    + by rewrite (stub_name_out_of_range stubs id Hn).
Qed.

End StubIdentity.

(** ** NamedCounter: construction *)

Section Construction.
Import NamedCounter.

Lemma fresh_unused (h : gmap addr string) : h !! fresh (dom h) = None.
Proof. apply not_elem_of_dom, is_fresh. Qed.

(** The two results of [os::strdup]. *)
Lemma os_strdup_cases (mem : bool) (h : gmap addr string) (s : string) :
  (mem = false ∧ os_strdup mem h s = (nullptr, h)) ∨
  (mem = true ∧
   os_strdup mem h s = (Some (fresh (dom h)), <[fresh (dom h) := s]> h)).
Proof. destruct mem; [by right|by left]. Qed.

Lemma os_strdup_extends (mem : bool) (h : gmap addr string) (s : string) :
  h ⊆ (os_strdup mem h s).2.
Proof.
  destruct mem; simpl; [|done]. apply insert_subseteq, fresh_unused.
Qed.

(** What the constructor returns for a null label and for a live one. *)
Lemma new_null (mem : bool) (h : gmap addr string) (tg : CounterTag) :
  new mem h nullptr tg = Some (mkNamedCounter nullptr 0 tg nullptr, h).
Proof. reflexivity. Qed.

Lemma new_live (mem : bool) (h : gmap addr string) (p : addr) (s : string)
      (tg : CounterTag) :
  h !! p = Some s →
  new mem h (Some p) tg =
    Some (mkNamedCounter (os_strdup mem h s).1 0 tg nullptr, (os_strdup mem h s).2).
Proof. intros Hp. unfold new. rewrite Hp. by destruct mem. Qed.

Lemma new_total (mem : bool) (h : gmap addr string) (n : ptr) (tg : CounterTag) :
  (∀ p, n = Some p → is_Some (h !! p)) →
  ∃ c h', new mem h n tg = Some (c, h') ∧ next c = nullptr ∧ h ⊆ h'.
Proof.
  intros Hlive. destruct n as [p|].
  - destruct (Hlive p eq_refl) as [s Hs].
    rewrite (new_live mem h p s tg Hs).
    eexists _, _. split_and!; [reflexivity|reflexivity|apply os_strdup_extends].
  - eexists _, _. split_and!; [apply new_null|reflexivity|reflexivity].
Qed.

(** The results of the constructor: no block, for a null label or when
    [os::strdup] returns null, or one new block. *)
Lemma new_cases (mem : bool) (h h' : gmap addr string) (n : ptr) (tg : CounterTag)
      (c : NamedCounter) :
  new mem h n tg = Some (c, h') →
  (c = mkNamedCounter nullptr 0 tg nullptr ∧ h' = h ∧
   (n = nullptr ∨ (mem = false ∧ ∃ p s, n = Some p ∧ h !! p = Some s))) ∨
  (∃ p s, n = Some p ∧ h !! p = Some s ∧ mem = true ∧
          c = mkNamedCounter (Some (fresh (dom h))) 0 tg nullptr ∧
          h' = <[fresh (dom h) := s]> h).
Proof.
  destruct n as [p|].
  - unfold new. destruct (h !! p) as [s|] eqn:Hs; [|discriminate].
    destruct mem; intros [= <- <-].
    + right. by exists p, s.
    + left. split_and!; [done|done|]. right. split; [done|]. by exists p, s.
  - intros [= <- <-]. left. split_and!; [done|done|by left].
Qed.

(** C10 as stated fails: when [os::strdup] returns null the constructor
    stores the null, so a counter built from a live, non-null label has a
    null name. *)
Lemma new_name_null_without_memory :
  new false {[ 3%positive := "lockA" ]} (Some 3%positive) LockCounter
  = Some (mkNamedCounter nullptr 0 LockCounter nullptr, {[ 3%positive := "lockA" ]}) ∧
  ¬ (∀ (mem : bool) (h h' : gmap addr string) (n : ptr) (tg : CounterTag)
       (c : NamedCounter),
       (∀ p, n = Some p → is_Some (h !! p)) →
       new mem h n tg = Some (c, h') →
       (name c = nullptr ↔ n = nullptr)).
Proof.
  assert (Hrun : new false {[ 3%positive := "lockA" ]} (Some 3%positive) LockCounter
                 = Some (mkNamedCounter nullptr 0 LockCounter nullptr,
                         {[ 3%positive := "lockA" ]})).
  { vm_compute. reflexivity. }
  split; [exact Hrun|].
  intros Hall.
  assert (Hlive : ∀ p, Some 3%positive = Some p →
                       is_Some (({[ 3%positive := "lockA" ]} : gmap addr string) !! p)).
  { intros p [= <-]. rewrite lookup_singleton_eq. eauto. }
  destruct (Hall false _ _ (Some 3%positive) LockCounter _ Hlive Hrun) as [Hnull _].
  specialize (Hnull eq_refl). discriminate.
Qed.

(** C10, amended. A counter constructed from a label [n] that is null or a
    live string has count 0, a null link and the given tag; leaving the tag
    out is the call with [NoTag]. Its name is null exactly when [n] is null
    or [os::strdup] returned null, and then the heap is as before. When
    [os::strdup] returned a block, the name is that block: one of its own,
    not in use before and different from the caller's, holding the same
    characters, and it keeps them when the caller's string is overwritten
    or freed. *)
Theorem new_counter_fields (mem : bool) (h : gmap addr string) (n : ptr)
        (tg : CounterTag) :
  (∀ p, n = Some p → is_Some (h !! p)) →
  ∃ c h',
    new mem h n tg = Some (c, h') ∧
    new_default mem h n = new mem h n NoTag ∧
    count c = 0 ∧ next c = nullptr ∧ tag c = tg ∧
    (name c = nullptr ↔ n = nullptr ∨ mem = false) ∧
    (name c = nullptr → h' = h) ∧
    (∀ p s, n = Some p → h !! p = Some s → mem = true →
       ∃ a, name c = Some a ∧ a ≠ p ∧ h !! a = None ∧
            h' !! a = Some s ∧ h' !! p = Some s ∧
            (∀ s', <[p := s']> h' !! a = Some s) ∧
            delete p h' !! a = Some s).
Proof.
  intros Hlive.
  destruct (new_total mem h n tg Hlive) as (c & h' & Hnew & _ & _).
  exists c, h'. split; [exact Hnew|]. split; [reflexivity|].
  destruct (new_cases _ _ _ _ _ _ Hnew)
    as [(-> & -> & Hwhy)|(p & s & -> & Hs & -> & -> & ->)].
  - split_and!; try reflexivity.
    + split; [intros _|reflexivity].
      destruct Hwhy as [->|[-> _]]; [by left|by right].
    + intros p s -> Hs ->. destruct Hwhy as [[=]|[[=] _]].
  - pose proof (fresh_unused h) as Hfresh.
    assert (Hne : fresh (dom h) ≠ p) by (intros Heq; rewrite Heq in Hfresh; congruence).
    split_and!; try reflexivity.
    + split; [intros [=]|]. intros [[=]|[=]].
    + intros [=].
    + intros p' s' [= <-] Hs' _. rewrite Hs in Hs'. injection Hs' as <-.
      exists (fresh (dom h)). split_and!; try done.
      * apply lookup_insert_eq.
      * by rewrite lookup_insert_ne.
      * intros s'. rewrite lookup_insert_ne by done. apply lookup_insert_eq.
      * rewrite lookup_delete_ne by done. apply lookup_insert_eq.
Qed.

(** A counter labelled from the string at address 3, with memory for the
    copy. *)
Lemma new_counter_fields_witness :
  ∃ c h',
    new true {[ 3%positive := "lockA" ]} (Some 3%positive) LockCounter = Some (c, h') ∧
    new_default true {[ 3%positive := "lockA" ]} (Some 3%positive)
    = new true {[ 3%positive := "lockA" ]} (Some 3%positive) NoTag ∧
    count c = 0 ∧ next c = nullptr ∧ tag c = LockCounter ∧
    (name c = nullptr ↔ Some 3%positive = nullptr ∨ true = false) ∧
    (name c = nullptr → h' = {[ 3%positive := "lockA" ]}) ∧
    (∀ p s, Some 3%positive = Some p →
       ({[ 3%positive := "lockA" ]} : gmap addr string) !! p = Some s →
       true = true →
       ∃ a, name c = Some a ∧ a ≠ p ∧
            ({[ 3%positive := "lockA" ]} : gmap addr string) !! a = None ∧
            h' !! a = Some s ∧ h' !! p = Some s ∧
            (∀ s', <[p := s']> h' !! a = Some s) ∧
            delete p h' !! a = Some s).
Proof.
  apply (new_counter_fields true {[ 3%positive := "lockA" ]} (Some 3%positive)
           LockCounter).
  intros p [= <-]. vm_compute. eauto.
Defined.

End Construction.

(** ** NamedCounter: the link and the global list *)

Section Links.
Import NamedCounter LinkHistory Registry.

Lemma set_next_accepted (c : NamedCounter) (p : ptr) :
  next c = nullptr ∨ p = nullptr →
  set_next c p = Returns (mkNamedCounter (_name c) (_count c) (_tag c) p).
Proof. intros H. unfold set_next. by rewrite decide_True. Qed.

Lemma set_next_rejected (c : NamedCounter) (p : ptr) :
  next c ≠ nullptr → p ≠ nullptr →
  set_next c p = AssertionFailure "already set".
Proof.
  intros Hc Hp. unfold set_next. rewrite decide_False; [done|].
  intros [H|H]; [by apply Hc | by apply Hp].
Qed.

Lemma set_next_returns (c c' : NamedCounter) (p : ptr) :
  set_next c p = Returns c' →
  guarded_step (next c) p ∧ next c' = p ∧
  name c' = name c ∧ count c' = count c ∧ tag c' = tag c.
Proof.
  unfold set_next. destruct (decide _) as [H|H]; [|discriminate].
  intros [= <-]. by split_and!.
Qed.

(** Along accepted calls, the history is the list of arguments and every
    step starts from an unset link or ends in one. *)
Lemma run_set_next_guarded (c c' : NamedCounter) (calls hist : list ptr) :
  run_set_next c calls = Returns (hist, c') →
  hist = calls ∧ guarded_history (next c) hist.
Proof.
  revert c hist. induction calls as [|p rest IH]; intros c hist Hrun; simpl in Hrun.
  - by simplify_eq.
  - destruct (set_next c p) as [c1| |] eqn:Hset; try discriminate.
    destruct (run_set_next c1 rest) as [[hist1 c2]| |] eqn:Hrest; try discriminate.
    simplify_eq.
    destruct (set_next_returns _ _ _ Hset) as (Hstep & Hnext & _).
    destruct (IH _ _ Hrest) as [-> Hg].
    rewrite Hnext in *. by split_and!.
Qed.

Lemma new_returns (mem : bool) (h h' : gmap addr string) (n : ptr) (tg : CounterTag)
      (c : NamedCounter) :
  new mem h n tg = Some (c, h') → next c = nullptr ∧ h ⊆ h'.
Proof.
  intros Hnew. destruct (new_cases _ _ _ _ _ _ Hnew)
    as [(-> & -> & _)|(p & s & _ & _ & _ & -> & ->)].
  - done.
  - split; [done|]. apply insert_subseteq, fresh_unused.
Qed.

Lemma linked_insert_unlisted (cs : gmap addr NamedCounter) (p : ptr) (l : list addr)
      (a : addr) (c : NamedCounter) :
  linked cs p l → a ∉ l → linked (<[a := c]> cs) p l.
Proof.
  induction 1 as [|b cb l Hb Hl IH]; intros Hnot.
  - constructor.
  - apply not_elem_of_cons in Hnot as [Hne Hnot].
    econstructor; [|by apply IH].
    by rewrite lookup_insert_ne.
Qed.

Lemma walk_linked (cs : gmap addr NamedCounter) (p : ptr) (l : list addr) (fuel : nat) :
  linked cs p l → (length l ≤ fuel)%nat → walk cs fuel p = Some l.
Proof.
  intros Hl. revert fuel. induction Hl as [|a c l Ha Hl IH]; intros fuel Hfuel.
  - by destruct fuel.
  - destruct fuel as [|fuel]; simpl in *; [lia|].
    rewrite Ha, IH by lia. done.
Qed.

Lemma linked_from_member (cs : gmap addr NamedCounter) (p : ptr) (l : list addr) (a : addr) :
  linked cs p l → a ∈ l →
  ∃ l1 l2, l = l1 ++ a :: l2 ∧ linked cs (Some a) (a :: l2).
Proof.
  induction 1 as [|b cb l Hb Hl IH]; intros Hin.
  - by apply elem_of_nil in Hin.
  - destruct (decide (a = b)) as [->|Hne].
    + exists [], l. split; [done|]. by econstructor.
    + apply elem_of_cons in Hin as [?|Hin]; [done|].
      destruct (IH Hin) as (l1 & l2 & -> & Hl2).
      by exists (b :: l1), l2.
Qed.

Lemma well_linked_empty (h : gmap addr string) : well_linked (empty_registry h) [].
Proof.
  unfold well_linked, empty_registry; simpl. split_and!.
  - constructor.
  - constructor.
  - intros a. rewrite lookup_empty. split.
    + by intros ?%elem_of_nil.
    + by intros ?%is_Some_None.
  - by rewrite map_size_empty.
Qed.

(** One creation puts the new counter in front of the list and touches no
    other counter. *)
Lemma new_named_counter_returns (mem : bool) (r r' : registry) (l : list addr)
      (n : ptr) (tg : CounterTag) (a : addr) :
  well_linked r l →
  new_named_counter mem r n tg = Some (a, r') →
  well_linked r' (a :: l) ∧
  counters r !! a = None ∧
  (∀ b, b ∈ l → counters r' !! b = counters r !! b) ∧
  strings r ⊆ strings r'.
Proof.
  intros (Hl & Hnd & Hdom & Hlen) Hnew. unfold new_named_counter in Hnew.
  destruct (new mem (strings r) n tg) as [[c h']|] eqn:Hc; [|discriminate].
  destruct (new_returns _ _ _ _ _ _ Hc) as [Hnext Hsub].
  rewrite (set_next_accepted c (_named_counters r)) in Hnew by (by left).
  injection Hnew as <- <-.
  set (a := fresh (dom (counters r))).
  assert (Ha : counters r !! a = None) by (apply not_elem_of_dom, is_fresh).
  assert (Hnotin : a ∉ l).
  { intros Hin. apply Hdom in Hin as [? ?]. congruence. }
  split_and!; [|done| |done].
  - unfold well_linked; simpl. split_and!.
    + econstructor; [apply lookup_insert_eq|].
      simpl. by apply linked_insert_unlisted.
    + by constructor.
    + intros b. rewrite elem_of_cons, lookup_insert. case_decide as Hab.
      * subst b. split; [eauto|by left].
      * rewrite <- Hdom. split; [intros [?|?]; [congruence|done]|by right].
    + rewrite map_size_insert_None by done. simpl. by rewrite Hlen.
  - intros b Hb. simpl. rewrite lookup_insert_ne; [done|].
    intros ->. by apply Hnotin.
Qed.

Lemma new_named_counter_total (mem : bool) (r : registry) (n : ptr) (tg : CounterTag) :
  (∀ p, n = Some p → is_Some (strings r !! p)) →
  ∃ a r', new_named_counter mem r n tg = Some (a, r').
Proof.
  intros Hlive.
  destruct (new_total mem (strings r) n tg Hlive) as (c & h' & Hc & Hnext & _).
  unfold new_named_counter. rewrite Hc.
  rewrite (set_next_accepted c (_named_counters r)) by (by left). eauto.
Qed.

Lemma labels_live_mono (h h' : gmap addr string) (reqs : list (bool * ptr * CounterTag)) :
  h ⊆ h' → labels_live h reqs → labels_live h' reqs.
Proof.
  intros Hsub Hlive. unfold labels_live in *.
  eapply Forall_impl; [exact Hlive|].
  intros req Hreq p Hp. destruct (Hreq p Hp) as [s Hs].
  exists s. by eapply lookup_weaken.
Qed.

(** A run of creations from a well linked registry: the list afterwards is
    the new handles, newest first, in front of the old list, and the old
    counters are as they were. *)
Lemma create_all_returns (reqs : list (bool * ptr * CounterTag)) (r r' : registry)
      (l hs : list addr) :
  well_linked r l →
  create_all r reqs = Some (hs, r') →
  well_linked r' (reverse hs ++ l) ∧
  (∀ b, b ∈ l → counters r' !! b = counters r !! b).
Proof.
  revert r l hs. induction reqs as [|[[mem n] tg] rest IH]; intros r l hs Hwl Hrun;
    simpl in Hrun.
  - by simplify_eq.
  - destruct (new_named_counter mem r n tg) as [[a r1]|] eqn:Hnew; [|discriminate].
    destruct (create_all r1 rest) as [[hs1 r2]|] eqn:Hrest; [|discriminate].
    simplify_eq.
    destruct (new_named_counter_returns _ _ _ _ _ _ _ Hwl Hnew) as (Hwl1 & _ & Hkeep1 & _).
    destruct (IH _ _ _ Hwl1 Hrest) as [Hwl2 Hkeep2].
    rewrite reverse_cons, <- app_assoc. simpl. split; [done|].
    intros b Hb. rewrite Hkeep2 by (by right). by apply Hkeep1.
Qed.

Lemma create_all_total (reqs : list (bool * ptr * CounterTag)) (r : registry)
      (l : list addr) :
  well_linked r l →
  labels_live (strings r) reqs →
  ∃ hs r', create_all r reqs = Some (hs, r').
Proof.
  revert r l. induction reqs as [|[[mem n] tg] rest IH]; intros r l Hwl Hlive; simpl.
  - eauto.
  - apply Forall_cons in Hlive as [Hn Hlive].
    destruct (new_named_counter_total mem r n tg Hn) as (a & r1 & Hnew).
    rewrite Hnew.
    destruct (new_named_counter_returns _ _ _ _ _ _ _ Hwl Hnew) as (Hwl1 & _ & _ & Hsub).
    destruct (IH r1 _ Hwl1 (labels_live_mono _ _ _ Hsub Hlive)) as (hs & r2 & Hrest).
    rewrite Hrest. eauto.
Qed.

(** C6 as stated fails on [set_next]. On a fresh counter the calls
    [set_next(1); set_next(nullptr); set_next(2)] all pass the assertion:
    the link goes from unset to set twice and ends at another counter than
    the one it was first set to. *)
Lemma set_next_link_set_twice :
  run_set_next (mkNamedCounter nullptr 0 NoTag nullptr)
               [Some 1%positive; nullptr; Some 2%positive]
    = Returns ([Some 1%positive; nullptr; Some 2%positive],
               mkNamedCounter nullptr 0 NoTag (Some 2%positive)) ∧
  transitions_to_set nullptr [Some 1%positive; nullptr; Some 2%positive] = 2%nat ∧
  ¬ set_once [Some 1%positive; nullptr; Some 2%positive] ∧
  ¬ (∀ c calls hist c',
       next c = nullptr → run_set_next c calls = Returns (hist, c') →
       (transitions_to_set nullptr hist ≤ 1)%nat ∧ set_once hist).
Proof.
  assert (Hnot : ¬ set_once [Some 1%positive; nullptr; Some 2%positive]).
  { intros Hso. specialize (Hso 0%nat 2%nat 1%positive). simpl in Hso.
    assert (Some (Some 2%positive) = Some (Some 1%positive)) as [=].
    apply Hso; [lia|reflexivity]. }
  split_and!; [reflexivity|reflexivity|exact Hnot|].
  intros Hall.
  destruct (Hall (mkNamedCounter nullptr 0 NoTag nullptr)
                 [Some 1%positive; nullptr; Some 2%positive]
                 [Some 1%positive; nullptr; Some 2%positive]
                 (mkNamedCounter nullptr 0 NoTag (Some 2%positive))
                 eq_refl eq_refl) as [Hle _].
  simpl in Hle. lia.
Qed.

(** C6, amended. [set_next] accepts a call exactly when the link is unset
    or the argument is null, and then stores the argument and nothing else:
    along accepted calls a set link is never replaced by another counter in
    one step, though it may be cleared and set again. In the global list
    built by head insertion, every counter created so far is on the list
    once, newest first, the counters created earlier keep their place and
    their link, and following the links from any counter never meets a
    counter twice. *)
Theorem named_counter_links_guarded :
  (∀ c p, next c = nullptr ∨ p = nullptr →
     ∃ c', set_next c p = Returns c' ∧ next c' = p ∧
           name c' = name c ∧ count c' = count c ∧ tag c' = tag c) ∧
  (∀ c p, next c ≠ nullptr → p ≠ nullptr →
     set_next c p = AssertionFailure "already set") ∧
  (∀ c calls hist c',
     run_set_next c calls = Returns (hist, c') →
     hist = calls ∧ guarded_history (next c) hist) ∧
  (∀ h reqs1 hs1 r1 reqs2,
     create_all (empty_registry h) reqs1 = Some (hs1, r1) →
     labels_live (strings r1) reqs2 →
     ∃ hs2 r2,
       create_all r1 reqs2 = Some (hs2, r2) ∧
       walk (counters r2) (size (counters r2)) (_named_counters r2)
         = Some (reverse (hs1 ++ hs2)) ∧
       NoDup (hs1 ++ hs2) ∧
       (∀ a, a ∈ hs1 →
          is_Some (counters r1 !! a) ∧ counters r2 !! a = counters r1 !! a) ∧
       (∀ a, a ∈ hs1 ++ hs2 →
          ∃ l, walk (counters r2) (size (counters r2)) (Some a) = Some (a :: l) ∧
               NoDup (a :: l))).
Proof.
  split_and!.
  - intros c p H. rewrite (set_next_accepted c p H). eexists. by split_and!.
  - apply set_next_rejected.
  - intros c calls hist c'. apply run_set_next_guarded.
  - intros h reqs1 hs1 r1 reqs2 Hrun1 Hlive.
    destruct (create_all_returns _ _ _ _ _ (well_linked_empty h) Hrun1) as [Hwl1 _].
    destruct (create_all_total reqs2 r1 _ Hwl1 Hlive) as (hs2 & r2 & Hrun2).
    destruct (create_all_returns _ _ _ _ _ Hwl1 Hrun2) as [Hwl2 Hkeep].
    rewrite app_nil_r in *. rewrite <- reverse_app in Hwl2.
    destruct Hwl1 as (_ & _ & Hdom1 & _).
    destruct Hwl2 as (Hl2 & Hnd2 & Hdom2 & Hlen2).
    exists hs2, r2. split_and!.
    + done.
    + apply walk_linked; [done|lia].
    + by rewrite reverse_Permutation in Hnd2.
    + intros a Ha. apply elem_of_reverse in Ha. split.
      * by apply Hdom1.
      * by apply Hkeep.
    + intros a Ha. apply elem_of_reverse in Ha.
      destruct (linked_from_member _ _ _ _ Hl2 Ha) as (l1 & l2 & Heq & Hla).
      exists l2. split.
      * apply walk_linked; [done|]. rewrite <- Hlen2, Heq, length_app. simpl. lia.
      * rewrite Heq in Hnd2. by apply NoDup_app in Hnd2 as (_ & _ & ?).
Qed.

(** Two creations, one after the other: a lock counter labelled from the
    string at address 3, then an unlabelled one. *)
Lemma named_counter_links_guarded_witness :
  ∃ hs2 r2,
    create_all
      (mkRegistry {[ 1%positive := mkNamedCounter (Some 4%positive) 0 LockCounter nullptr ]}
                  (Some 1%positive)
                  (<[ 4%positive := "lockA" ]> {[ 3%positive := "lockA" ]}))
      [(true, nullptr, NoTag)] = Some (hs2, r2) ∧
    walk (counters r2) (size (counters r2)) (_named_counters r2)
      = Some (reverse ([1%positive] ++ hs2)) ∧
    NoDup ([1%positive] ++ hs2) ∧
    (∀ a, a ∈ [1%positive] →
       is_Some (({[ 1%positive := mkNamedCounter (Some 4%positive) 0 LockCounter nullptr ]}
                   : gmap addr NamedCounter) !! a) ∧
       counters r2 !! a
         = ({[ 1%positive := mkNamedCounter (Some 4%positive) 0 LockCounter nullptr ]}
              : gmap addr NamedCounter) !! a) ∧
    (∀ a, a ∈ [1%positive] ++ hs2 →
       ∃ l, walk (counters r2) (size (counters r2)) (Some a) = Some (a :: l) ∧
            NoDup (a :: l)).
Proof.
  apply (proj2 (proj2 (proj2 named_counter_links_guarded))
           {[ 3%positive := "lockA" ]} [(true, Some 3%positive, LockCounter)]).
  - vm_compute. reflexivity.
  - constructor; [intros p [=]|constructor].
Defined.

End Links.

(** ** The definitions on concrete inputs *)

Section Examples.
Import NamedCounter LinkHistory Registry OptoRuntime.

Example header_NUM_STUBIDS : NUM_STUBIDS header_stubs = 21.
Proof. reflexivity. Qed.

Example header_enumerators_dense :
  enumerators NO_STUBID (take 4 header_stubs) = [0; 1; 2; 3].
Proof. reflexivity. Qed.

Example stub_name_first : stub_name header_stubs 0 = Returns "uncommon_trap".
Proof. reflexivity. Qed.

Example stub_name_last :
  stub_name header_stubs 20 = Returns "notify_jvmti_vthread_unmount".
Proof. reflexivity. Qed.

Example stub_name_sentinel :
  stub_name header_stubs NO_STUBID = AssertionFailure "stub id out of range".
Proof. reflexivity. Qed.

Example stub_name_past_end :
  stub_name header_stubs 21 = AssertionFailure "stub id out of range".
Proof. reflexivity. Qed.

Example new_copies_label :
  new true {[ 3%positive := "lockA" ]} (Some 3%positive) LockCounter
  = Some (mkNamedCounter (Some 4%positive) 0 LockCounter nullptr,
          <[ 4%positive := "lockA" ]> {[ 3%positive := "lockA" ]}).
Proof. vm_compute. reflexivity. Qed.

Example new_stores_null_copy :
  new false {[ 3%positive := "lockA" ]} (Some 3%positive) LockCounter
  = Some (mkNamedCounter nullptr 0 LockCounter nullptr, {[ 3%positive := "lockA" ]}).
Proof. vm_compute. reflexivity. Qed.

Example new_dangling_label : new true ∅ (Some 3%positive) NoTag = None.
Proof. reflexivity. Qed.

Example set_next_on_set_link :
  set_next (mkNamedCounter nullptr 0 NoTag (Some 1%positive)) (Some 2%positive)
  = AssertionFailure "already set".
Proof. reflexivity. Qed.

Example set_next_clears_link :
  set_next (mkNamedCounter nullptr 0 NoTag (Some 1%positive)) nullptr
  = Returns (mkNamedCounter nullptr 0 NoTag nullptr).
Proof. reflexivity. Qed.

Example create_three_walk :
  match create_all (empty_registry ∅)
                   [(true, nullptr, NoTag); (false, nullptr, LockCounter);
                    (true, nullptr, EliminatedLockCounter)] with
  | Some (hs, r) =>
      hs = [1%positive; 2%positive; 3%positive] ∧
      walk (counters r) (size (counters r)) (_named_counters r)
        = Some [3%positive; 2%positive; 1%positive]
  | None => False
  end.
Proof. vm_compute. split; reflexivity. Qed.

End Examples.

(** ** NamedCounter: the heap across construction and destruction *)

Section Ownership.
Import NamedCounter.

(** Destroying a counter right after constructing it gives back the heap
    the constructor started from. *)
Lemma new_destroy_restores_heap (mem : bool) (h h' : gmap addr string) (n : ptr)
      (tg : CounterTag) (c : NamedCounter) :
  new mem h n tg = Some (c, h') → destroy h' c = h.
Proof.
  intros Hnew. destruct (new_cases _ _ _ _ _ _ Hnew)
    as [(-> & -> & _)|(p & s & _ & _ & _ & -> & ->)].
  - reflexivity.
  - unfold destroy, os_free. cbn [_name].
    rewrite delete_insert_eq. apply delete_id, fresh_unused.
Qed.

(** X2. Two counters constructed one after the other from the same live
    label, whatever [os::strdup] returns to each. A counter's name is null
    exactly when its [os::strdup] returned null. The counters never share a
    name block: a block one of them owns differs from the caller's string
    and is not the other's name. Destroying either one leaves the other's
    name and the caller's string in place, and destroying both, in either
    order, gives back the original heap. *)
Theorem counters_own_separate_names (mem1 mem2 : bool) (h : gmap addr string)
        (p : addr) (s : string) (tg1 tg2 : CounterTag) :
  h !! p = Some s →
  ∃ c1 h1 c2 h2,
    new mem1 h (Some p) tg1 = Some (c1, h1) ∧
    new mem2 h1 (Some p) tg2 = Some (c2, h2) ∧
    (name c1 = nullptr ↔ mem1 = false) ∧
    (name c2 = nullptr ↔ mem2 = false) ∧
    h2 !! p = Some s ∧
    destroy h2 c1 !! p = Some s ∧ destroy h2 c2 !! p = Some s ∧
    (∀ a1, name c1 = Some a1 →
       a1 ≠ p ∧ name c2 ≠ Some a1 ∧ h !! a1 = None ∧
       h2 !! a1 = Some s ∧ destroy h2 c2 !! a1 = Some s) ∧
    (∀ a2, name c2 = Some a2 →
       a2 ≠ p ∧ name c1 ≠ Some a2 ∧ h !! a2 = None ∧
       h2 !! a2 = Some s ∧ destroy h2 c1 !! a2 = Some s) ∧
    destroy (destroy h2 c1) c2 = h ∧
    destroy (destroy h2 c2) c1 = h.
Proof.
  intros Hs.
  destruct (new_total mem1 h (Some p) tg1) as (c1 & h1 & Hnew1 & _ & Hsub1).
  { intros q [= <-]. eauto. }
  assert (Hs1 : h1 !! p = Some s) by (by eapply lookup_weaken).
  destruct (new_total mem2 h1 (Some p) tg2) as (c2 & h2 & Hnew2 & _ & Hsub2).
  { intros q [= <-]. eauto. }
  assert (Hs2 : h2 !! p = Some s) by (by eapply lookup_weaken).
  exists c1, h1, c2, h2. split; [done|]. split; [done|].
  destruct (new_cases _ _ _ _ _ _ Hnew1)
    as [(-> & -> & [[=]|[-> _]])|(p1 & s1 & [= <-] & Hs' & -> & -> & ->)];
  destruct (new_cases _ _ _ _ _ _ Hnew2)
    as [(-> & -> & [[=]|[-> _]])|(p2 & s2 & [= <-] & Hs'' & -> & -> & ->)];
  unfold destroy, os_free, name, nullptr; cbn [_name].
  - by split_and!.
  - assert (s2 = s) as -> by congruence.
    pose proof (fresh_unused h) as Hf.
    assert (Hne : fresh (dom h) ≠ p) by (intros E; rewrite E in Hf; congruence).
    split_and!; try done.
    + by rewrite lookup_delete_ne.
    + intros a [= E]. subst a. split_and!; try done; apply lookup_insert_eq.
    + rewrite delete_insert_eq. by apply delete_id.
    + rewrite delete_insert_eq. by apply delete_id.
  - assert (s1 = s) as -> by congruence.
    pose proof (fresh_unused h) as Hf.
    assert (Hne : fresh (dom h) ≠ p) by (intros E; rewrite E in Hf; congruence).
    split_and!; try done.
    + by rewrite lookup_delete_ne.
    + intros a [= E]. subst a. split_and!; try done; apply lookup_insert_eq.
    + rewrite delete_insert_eq. by apply delete_id.
    + rewrite delete_insert_eq. by apply delete_id.
  - assert (s1 = s) as -> by congruence.
    assert (s2 = s) as -> by congruence.
    set (a1 := fresh (dom h)) in *.
    set (g := <[a1 := s]> h) in *.
    set (a2 := fresh (dom g)) in *.
    assert (Ha1 : h !! a1 = None) by apply fresh_unused.
    assert (Ha2 : g !! a2 = None) by apply fresh_unused.
    assert (Hp1 : a1 ≠ p) by (intros E; rewrite E in Ha1; congruence).
    assert (Hp2 : a2 ≠ p) by (intros E; rewrite E in Ha2; congruence).
    assert (H12 : a1 ≠ a2).
    { intros E. rewrite <- E in Ha2. unfold g in Ha2.
      rewrite lookup_insert_eq in Ha2. discriminate. }
    assert (Ha2h : h !! a2 = None).
    { unfold g in Ha2. by rewrite lookup_insert_ne in Ha2. }
    assert (Hg1 : g !! a1 = Some s) by apply lookup_insert_eq.
    split_and!; try done.
    + by rewrite lookup_delete_ne.
    + by rewrite lookup_delete_ne.
    + intros a [= E]. subst a. split_and!; try done.
      * by intros [= E].
      * by rewrite lookup_insert_ne.
      * by rewrite delete_insert_eq, (delete_id g a2).
    + intros a [= E]. subst a. split_and!; try done.
      * by intros [= E].
      * apply lookup_insert_eq.
      * rewrite lookup_delete_ne by done. apply lookup_insert_eq.
    + rewrite delete_delete, delete_insert_eq, (delete_id g a2) by done.
      unfold g. rewrite delete_insert_eq. by apply delete_id.
    + rewrite delete_insert_eq, (delete_id g a2) by done.
      unfold g. rewrite delete_insert_eq. by apply delete_id.
Qed.

(** The first counter gets a block, the second does not. *)
Lemma counters_own_separate_names_witness :
  ∃ c1 h1 c2 h2,
    new true {[ 3%positive := "lockA" ]} (Some 3%positive) LockCounter = Some (c1, h1) ∧
    new false h1 (Some 3%positive) EliminatedLockCounter = Some (c2, h2) ∧
    (name c1 = nullptr ↔ true = false) ∧
    (name c2 = nullptr ↔ false = false) ∧
    h2 !! 3%positive = Some "lockA" ∧
    destroy h2 c1 !! 3%positive = Some "lockA" ∧
    destroy h2 c2 !! 3%positive = Some "lockA" ∧
    (∀ a1, name c1 = Some a1 →
       a1 ≠ 3%positive ∧ name c2 ≠ Some a1 ∧
       ({[ 3%positive := "lockA" ]} : gmap addr string) !! a1 = None ∧
       h2 !! a1 = Some "lockA" ∧ destroy h2 c2 !! a1 = Some "lockA") ∧
    (∀ a2, name c2 = Some a2 →
       a2 ≠ 3%positive ∧ name c1 ≠ Some a2 ∧
       ({[ 3%positive := "lockA" ]} : gmap addr string) !! a2 = None ∧
       h2 !! a2 = Some "lockA" ∧ destroy h2 c1 !! a2 = Some "lockA") ∧
    destroy (destroy h2 c1) c2 = {[ 3%positive := "lockA" ]} ∧
    destroy (destroy h2 c2) c1 = {[ 3%positive := "lockA" ]}.
Proof.
  apply (counters_own_separate_names true false {[ 3%positive := "lockA" ]}
           3%positive "lockA" LockCounter EliminatedLockCounter).
  vm_compute. reflexivity.
Defined.

End Ownership.

(** ** NamedCounter: which calls of [set_next] and [set_tag] go through *)

Section Protocol.
Import NamedCounter LinkHistory.

#[local] Instance guarded_step_dec (before after : ptr) : Decision (guarded_step before after).
Proof. unfold guarded_step, nullptr. apply _. Defined.

Lemma last_nonempty_default {A : Type} (l : list A) (x d d' : A) :
  List.last (x :: l) d = List.last (x :: l) d'.
Proof.
  revert x. induction l as [|y l IH]; intros x.
  - reflexivity.
  - change (List.last (y :: l) d = List.last (y :: l) d'). apply IH.
Qed.

Lemma run_set_next_of_guarded (c : NamedCounter) (calls : list ptr) :
  guarded_history (next c) calls →
  run_set_next c calls
  = Returns (calls, mkNamedCounter (_name c) (_count c) (_tag c)
                                   (List.last calls (next c))).
Proof.
  revert c. induction calls as [|p rest IH]; intros c Hg.
  - by destruct c.
  - destruct Hg as [Hstep Hg]. cbn [run_set_next].
    rewrite (set_next_accepted c p Hstep).
    rewrite (IH (mkNamedCounter (_name c) (_count c) (_tag c) p) Hg).
    cbn [next _name _count _tag _next]. do 3 f_equal.
    destruct rest as [|q rest]; [reflexivity|].
    change (List.last (q :: rest) p = List.last (q :: rest) (_next c)).
    apply last_nonempty_default.
Qed.

Lemma run_set_next_of_unguarded (c : NamedCounter) (calls : list ptr) :
  ¬ guarded_history (next c) calls →
  run_set_next c calls = AssertionFailure "already set".
Proof.
  revert c. induction calls as [|p rest IH]; intros c Hng.
  - by destruct Hng.
  - cbn [run_set_next]. destruct (decide (guarded_step (next c) p)) as [Hstep|Hstep].
    + rewrite (set_next_accepted c p Hstep).
      rewrite IH; [done|]. intros Hg. apply Hng. by split.
    + rewrite set_next_rejected; [done| |].
      * intros H. apply Hstep. by left.
      * intros H. apply Hstep. by right.
Qed.

(** X3. A sequence of [set_next] calls on a counter passes every assertion
    exactly when, starting with the counter's current link, no call stores a
    counter over a link that is still set. Then the link ends at the last
    argument (or stays, for no call) and name, count and tag are untouched;
    otherwise the run stops with the assertion "already set". *)
Theorem run_set_next_accepts_iff_guarded (c : NamedCounter) (calls : list ptr) :
  (guarded_history (next c) calls ↔ ∃ c', run_set_next c calls = Returns (calls, c')) ∧
  (∀ hist c', run_set_next c calls = Returns (hist, c') →
     next c' = List.last calls (next c) ∧
     name c' = name c ∧ count c' = count c ∧ tag c' = tag c) ∧
  (¬ guarded_history (next c) calls ↔
   run_set_next c calls = AssertionFailure "already set").
Proof.
  split_and!.
  - split.
    + intros Hg. rewrite (run_set_next_of_guarded c calls Hg). eauto.
    + intros [c' Hrun]. by destruct (run_set_next_guarded _ _ _ _ Hrun).
  - intros hist c' Hrun.
    destruct (run_set_next_guarded _ _ _ _ Hrun) as [-> Hg].
    rewrite (run_set_next_of_guarded c calls Hg) in Hrun.
    injection Hrun as <-. by split_and!.
  - split; [apply run_set_next_of_unguarded|].
    intros Hfail Hg. rewrite (run_set_next_of_guarded c calls Hg) in Hfail.
    discriminate.
Qed.

(** Whatever its link, a counter can be relinked to any target by
    clearing first: [set_next(nullptr); set_next(p)] always passes, while
    [set_next(p)] alone passes only from an unset link or for a null [p]. *)
Corollary set_next_relink_by_clearing (c : NamedCounter) (p : ptr) :
  run_set_next c [nullptr; p]
  = Returns ([nullptr; p], mkNamedCounter (_name c) (_count c) (_tag c) p) ∧
  ((∃ c', set_next c p = Returns c') ↔ next c = nullptr ∨ p = nullptr).
Proof.
  split.
  - apply (run_set_next_of_guarded c [nullptr; p]).
    split; [by right|]. split; [by left|done].
  - split.
    + intros [c' Hset]. by destruct (set_next_returns _ _ _ Hset).
    + intros H. rewrite (set_next_accepted c p H). eauto.
Qed.

(** [set_tag] changes the tag and nothing else, the last tag written
    wins, and tagging does not interfere with linking: [set_next] is
    accepted or rejected as without the tagging, and the two calls give the
    same counter in either order. The destructor frees the same block
    before and after. *)
Lemma set_tag_independent_of_link (c : NamedCounter) (t t' : CounterTag) (p : ptr) :
  tag (set_tag c t) = t ∧
  name (set_tag c t) = name c ∧ count (set_tag c t) = count c ∧
  next (set_tag c t) = next c ∧
  set_tag (set_tag c t) t' = set_tag c t' ∧
  set_next (set_tag c t) p
  = match set_next c p with
    | Returns c' => Returns (set_tag c' t)
    | AssertionFailure m => AssertionFailure m
    | OutOfBounds => OutOfBounds
    end ∧
  (∀ h : gmap addr string, destroy h (set_tag c t) = destroy h c).
Proof.
  split_and!; try reflexivity.
  unfold set_next. cbn [set_tag _next _name _count _tag].
  by destruct (decide _).
Qed.

End Protocol.

(** ** NamedCounter: from construction to destruction *)

Section WholeLife.
Import NamedCounter LinkHistory Lifecycle.

Lemma last_cons_shift {A : Type} (l : list A) (x d : A) :
  List.last (x :: l) d = List.last l x.
Proof.
  destruct l as [|y l]; [reflexivity|].
  change (List.last (y :: l) d = List.last (y :: l) x).
  apply last_nonempty_default.
Qed.

Lemma do_calls_returns (ks : list call) (c c' : NamedCounter) :
  do_calls c ks = Returns c' →
  name c' = name c ∧ count c' = count c ∧
  tag c' = List.last (tags_written ks) (tag c) ∧
  next c' = List.last (links_written ks) (next c) ∧
  guarded_history (next c) (links_written ks).
Proof.
  revert c. induction ks as [|k rest IH]; intros c Hrun; cbn [do_calls] in Hrun.
  - injection Hrun as <-. by split_and!.
  - destruct k as [t|p]; cbn [do_call] in Hrun.
    + destruct (IH _ Hrun) as (Hn & Hc & Ht & Hl & Hg).
      change (tags_written (SetTag t :: rest)) with (t :: tags_written rest).
      change (links_written (SetTag t :: rest)) with (links_written rest).
      rewrite last_cons_shift. by split_and!.
    + destruct (set_next c p) as [c1| |] eqn:Hset; try discriminate.
      destruct (set_next_returns _ _ _ Hset) as (Hstep & Hnext & Hn1 & Hc1 & Ht1).
      destruct (IH _ Hrun) as (Hn & Hc & Ht & Hl & Hg).
      change (tags_written (SetNext p :: rest)) with (tags_written rest).
      change (links_written (SetNext p :: rest)) with (p :: links_written rest).
      rewrite last_cons_shift. rewrite Hnext in Hl, Hg.
      split_and!; [congruence|congruence|congruence|done|by split].
Qed.

Lemma do_calls_accepted (ks : list call) (c : NamedCounter) :
  guarded_history (next c) (links_written ks) → ∃ c', do_calls c ks = Returns c'.
Proof.
  revert c. induction ks as [|k rest IH]; intros c Hg; cbn [do_calls].
  - eauto.
  - destruct k as [t|p]; cbn [do_call].
    + apply IH. exact Hg.
    + change (links_written (SetNext p :: rest)) with (p :: links_written rest) in Hg.
      destruct Hg as [Hstep Hg].
      rewrite (set_next_accepted c p Hstep). apply IH. exact Hg.
Qed.

(** X4. A counter from its constructor, whatever [os::strdup] returned to
    it, under any sequence of [set_tag] and [set_next] calls. The sequence passes every assertion exactly when
    its [set_next] arguments, starting from the null link, never store a
    counter over a link that is still set; the tags play no part. When it
    passes, name and count are those the constructor set, tag and link are
    the last ones written, and the destructor then gives back the heap the
    constructor started from. *)
Theorem counter_whole_life (mem : bool) (h h' : gmap addr string) (n : ptr)
        (tg : CounterTag) (c : NamedCounter) (ks : list call) :
  new mem h n tg = Some (c, h') →
  ((∃ c', do_calls c ks = Returns c') ↔ guarded_history nullptr (links_written ks)) ∧
  (∀ c', do_calls c ks = Returns c' →
     name c' = name c ∧ count c' = 0 ∧
     tag c' = List.last (tags_written ks) tg ∧
     next c' = List.last (links_written ks) nullptr ∧
     destroy h' c' = h).
Proof.
  intros Hnew.
  assert (Hfields : next c = nullptr ∧ tag c = tg ∧ count c = 0).
  { destruct (new_cases _ _ _ _ _ _ Hnew)
      as [(-> & _ & _)|(p & s & _ & _ & _ & -> & _)]; by split_and!. }
  destruct Hfields as (Hnext & Htag & Hcount).
  split.
  - rewrite <- Hnext. split.
    + intros [c' Hrun]. by destruct (do_calls_returns _ _ _ Hrun) as (_ & _ & _ & _ & ?).
    + apply do_calls_accepted.
  - intros c' Hrun.
    destruct (do_calls_returns _ _ _ Hrun) as (Hn & Hc & Ht & Hl & _).
    split_and!; [done|congruence|congruence|congruence|].
    transitivity (destroy h' c).
    + unfold destroy. unfold name in Hn. by rewrite Hn.
    + by eapply new_destroy_restores_heap.
Qed.

(** A lock counter labelled from the string at address 3, tagged and linked
    in four calls. *)
Lemma counter_whole_life_witness :
  ((∃ c', do_calls (mkNamedCounter (Some 4%positive) 0 LockCounter nullptr)
                   [SetNext (Some 7%positive); SetTag EliminatedLockCounter;
                    SetNext nullptr; SetNext (Some 9%positive)] = Returns c')
   ↔ guarded_history nullptr
       (links_written [SetNext (Some 7%positive); SetTag EliminatedLockCounter;
                       SetNext nullptr; SetNext (Some 9%positive)])) ∧
  (∀ c', do_calls (mkNamedCounter (Some 4%positive) 0 LockCounter nullptr)
                  [SetNext (Some 7%positive); SetTag EliminatedLockCounter;
                   SetNext nullptr; SetNext (Some 9%positive)] = Returns c' →
     name c' = name (mkNamedCounter (Some 4%positive) 0 LockCounter nullptr) ∧
     count c' = 0 ∧
     tag c' = List.last (tags_written [SetNext (Some 7%positive);
                                       SetTag EliminatedLockCounter;
                                       SetNext nullptr; SetNext (Some 9%positive)])
                        LockCounter ∧
     next c' = List.last (links_written [SetNext (Some 7%positive);
                                         SetTag EliminatedLockCounter;
                                         SetNext nullptr; SetNext (Some 9%positive)])
                         nullptr ∧
     destroy (<[ 4%positive := "lockA" ]> {[ 3%positive := "lockA" ]}) c'
     = {[ 3%positive := "lockA" ]}).
Proof.
  apply (counter_whole_life true {[ 3%positive := "lockA" ]} _ (Some 3%positive)
           LockCounter).
  vm_compute. reflexivity.
Defined.

End WholeLife.

(** ** Stub ids: numbering *)

Section Numbering.
Import OptoRuntime.

Lemma enumerators_seq (prev : Z) (stubs : list stub_decl) :
  enumerators prev stubs = (λ i : nat, prev + 1 + Z.of_nat i) <$> seq 0 (length stubs).
Proof.
  revert prev. induction stubs as [|d rest IH]; intros prev.
  - reflexivity.
  - cbn [enumerators length seq fmap list_fmap]. f_equal; [lia|].
    rewrite IH, <- fmap_S_seq, <- list_fmap_compose.
    apply list_fmap_ext. intros _ i _. simpl. lia.
Qed.

Lemma enumerators_app (prev : Z) (stubs more : list stub_decl) :
  enumerators prev (stubs ++ more)
  = enumerators prev stubs ++ enumerators (prev + Z.of_nat (length stubs)) more.
Proof.
  revert prev. induction stubs as [|d rest IH]; intros prev.
  - simpl. f_equal. lia.
  - cbn [app enumerators length]. rewrite IH. do 3 f_equal. lia.
Qed.

(** X5. The enumerators [C2_STUBS_DO] declares are 0, 1, 2, ... in the
    order of the macro's entries, with no gap and no repeat, and
    [NUM_STUBIDS] is their number. An id passes the assertion of
    [stub_name] exactly when it is one of them, and [stub_name] of the
    enumerator of the i-th entry returns the string of that entry. *)
Theorem enumerators_dense (stubs : list stub_decl) :
  enumerators NO_STUBID stubs = Z.of_nat <$> seq 0 (length stubs) ∧
  NUM_STUBIDS stubs = Z.of_nat (length stubs) ∧
  NoDup (enumerators NO_STUBID stubs) ∧
  (∀ id, in_range stubs id ↔ id ∈ enumerators NO_STUBID stubs) ∧
  (∀ (i : nat) d, stubs !! i = Some d →
     enumerators NO_STUBID stubs !! i = Some (Z.of_nat i) ∧
     stub_name stubs (Z.of_nat i) = Returns (decl_name d)).
Proof.
  assert (Henum : enumerators NO_STUBID stubs = Z.of_nat <$> seq 0 (length stubs)).
  { rewrite enumerators_seq. apply list_fmap_ext. intros _ i _.
    unfold NO_STUBID. lia. }
  split_and!.
  - exact Henum.
  - apply NUM_STUBIDS_count.
  - rewrite Henum. apply NoDup_fmap; [apply _|apply NoDup_seq].
  - intros id. rewrite Henum, list_elem_of_fmap.
    unfold in_range, NO_STUBID. rewrite NUM_STUBIDS_count. split.
    + intros [H0 Hlt]. exists (Z.to_nat id). split; [lia|].
      apply elem_of_seq. lia.
    + intros (i & -> & Hi). apply elem_of_seq in Hi. lia.
  - intros i d Hd. pose proof (lookup_lt_Some _ _ _ Hd) as Hlt. split.
    + rewrite enumerators_lookup by done. reflexivity.
    + assert (Hr : in_range stubs (Z.of_nat i)).
      { unfold in_range, NO_STUBID. rewrite NUM_STUBIDS_count. lia. }
      destruct (stub_name_in_range stubs _ Hr) as (s & Hs & ->).
      rewrite Nat2Z.id in Hs. unfold _stub_names in Hs.
      rewrite list_lookup_fmap, Hd in Hs. simpl in Hs. by injection Hs as <-.
Qed.

(** X6. Ids are given by position in the macro. Entries added after the
    last one leave every existing id and its name as they are and take the
    ids from the old [NUM_STUBIDS] on; an entry added in front moves every
    existing name to the next id. *)
Theorem stub_ids_positional (stubs more : list stub_decl) (d : stub_decl) :
  NUM_STUBIDS (stubs ++ more) = NUM_STUBIDS stubs + Z.of_nat (length more) ∧
  enumerators NO_STUBID (stubs ++ more)
  = enumerators NO_STUBID stubs ++ enumerators (NUM_STUBIDS stubs - 1) more ∧
  (∀ id, in_range stubs id →
     in_range (stubs ++ more) id ∧
     stub_name (stubs ++ more) id = stub_name stubs id) ∧
  (∀ id, in_range more id →
     stub_name (stubs ++ more) (NUM_STUBIDS stubs + id) = stub_name more id) ∧
  (∀ id, in_range stubs id →
     stub_name (d :: stubs) (id + 1) = stub_name stubs id) ∧
  stub_name (d :: stubs) 0 = Returns (decl_name d).
Proof.
  assert (Hin : ∀ l id, in_range l id ↔ 0 ≤ id < Z.of_nat (length l)).
  { intros l id. unfold in_range, NO_STUBID. rewrite NUM_STUBIDS_count. lia. }
  assert (Hname : ∀ l id s, in_range l id →
            _stub_names l !! Z.to_nat id = Some s → stub_name l id = Returns s).
  { intros l id s Hr Hs. destruct (stub_name_in_range l id Hr) as (s' & Hs' & ->).
    congruence. }
  split_and!.
  - rewrite !NUM_STUBIDS_count, length_app. lia.
  - rewrite enumerators_app, NUM_STUBIDS_count. unfold NO_STUBID.
    do 2 f_equal. lia.
  - intros id Hr. apply Hin in Hr as Hb.
    assert (Hr' : in_range (stubs ++ more) id).
    { apply Hin. rewrite length_app. lia. }
    split; [done|].
    destruct (stub_name_in_range stubs id Hr) as (s & Hs & ->).
    apply Hname; [done|]. unfold _stub_names in *.
    rewrite fmap_app, lookup_app_l; [done|]. rewrite length_fmap. lia.
  - intros id Hr. apply Hin in Hr as Hb.
    destruct (stub_name_in_range more id Hr) as (s & Hs & ->).
    apply Hname.
    + apply Hin. rewrite NUM_STUBIDS_count, length_app. lia.
    + unfold _stub_names in *. rewrite fmap_app, lookup_app_r.
      * rewrite length_fmap, NUM_STUBIDS_count.
        replace (Z.to_nat (Z.of_nat (length stubs) + id) - length stubs)%nat
          with (Z.to_nat id) by lia.
        done.
      * rewrite length_fmap, NUM_STUBIDS_count. lia.
  - intros id Hr. apply Hin in Hr as Hb.
    destruct (stub_name_in_range stubs id Hr) as (s & Hs & ->).
    apply Hname.
    + apply Hin. cbn [length]. lia.
    + replace (Z.to_nat (id + 1)) with (S (Z.to_nat id)) by lia. done.
  - apply Hname; [|reflexivity]. apply Hin. cbn [length]. lia.
Qed.

End Numbering.
